(** * LWW map of what-the-fawk/crdt: merge engine and gossip snapshot

    Shallow embedding of [src/main.go].  The store is a [gmap] from keys to
    records, the logical clock is Go's [int] (64 bits on the platforms the
    Dockerfile builds for) carried as a [Z] with the wrap-around of
    [m.clock++] written out, and [Apply] is the left fold of the loop body
    over the batch.  The mutex makes a batch atomic, so one call of [Apply]
    is one state transition; [log.Printf] has no effect on the state and is
    left out. *)

From Stdlib Require Import ZArith String Ascii List Lia.
From stdpp Require Import base gmap strings list fin_maps.

Local Open Scope string_scope.
Local Open Scope Z_scope.

(** ** Machine integers *)

Module Int64.

Definition min_int : Z := - 2 ^ 63.
Definition max_int : Z := 2 ^ 63 - 1.

(** Two's complement wrap-around of a 64-bit signed result. *)
Definition wrap (z : Z) : Z := (z + 2 ^ 63) `mod` 2 ^ 64 - 2 ^ 63.

Definition in_range (z : Z) : Prop := min_int ≤ z ≤ max_int.

(** [x++] on an [int]. *)
Definition incr (z : Z) : Z := wrap (z + 1).

End Int64.

(** ** Data model (main.go, lines 15-47) *)

Definition Clock := Z.

Record Patch := mkPatch {
  Key : string;
  Value : string;
  Timestamp : Clock
}.

Record Data := mkData {
  Data_Value : string;
  Data_Timestamp : Clock
}.

Record LWWMap := mkLWWMap {
  store : gmap string Data;
  clock : Clock;
  nodeID : string;
  replicas : list string
}.

Definition NewLWWMap (nodeID : string) (replicas : list string) : LWWMap :=
  {| store := ∅; clock := 0; nodeID := nodeID; replicas := replicas |}.

(** Go compares strings byte by byte; [String.compare] is that order on
    lists of 8-bit characters. *)
Definition string_gt (a b : string) : bool :=
  match String.compare a b with
  | Gt => true
  | _ => false
  end.

Definition set_clock (c : Clock) (m : LWWMap) : LWWMap :=
  {| store := store m; clock := c; nodeID := nodeID m; replicas := replicas m |}.

Definition set_store (k : string) (d : Data) (m : LWWMap) : LWWMap :=
  {| store := <[k := d]> (store m); clock := clock m;
     nodeID := nodeID m; replicas := replicas m |}.

(** ** Merge engine (main.go, lines 58-87) *)

(** [m.store[key]] of a missing key is Go's zero [Data]. *)
Definition zero_Data : Data := {| Data_Value := ""; Data_Timestamp := 0 |}.

(** The two-result map read [existing, exists := m.store[key]]
    ([exists] is a keyword here, hence [exists_] below). *)
Definition lookup_ok (m : LWWMap) (key : string) : Data * bool :=
  match store m !! key with
  | Some data => (data, true)
  | None => (zero_Data, false)
  end.

(** The body of the [for] loop of [Apply], for one [op]. *)
Definition apply_op (m : LWWMap) (op : Patch) : LWWMap :=
  let timestamp := clock m in
  let timestamp := if Timestamp op <? 0 then clock m else timestamp in
  let value := {| Data_Value := Value op; Data_Timestamp := timestamp |} in
  let '(existing, exists_) := lookup_ok m (Key op) in
  let m :=
    if negb exists_ || (Data_Timestamp existing <? Timestamp op) then
      let m := set_clock (Int64.incr (clock m)) m in
      set_store (Key op) value m
    else if Data_Timestamp existing =? Timestamp op then
      if string_gt (Value op) (Data_Value existing) then
        let m := set_store (Key op) value m in
        set_clock (Int64.incr (clock m)) m
      else m
    else m in
  set_clock (Z.max (clock m) (Timestamp op)) m.

Definition Apply (m : LWWMap) (operations : list Patch) : LWWMap :=
  fold_left apply_op operations m.

(** A node's history: the batches it was handed, one [Apply] call each. *)
Definition run (m : LWWMap) (batches : list (list Patch)) : LWWMap :=
  fold_left Apply batches m.

(** ** Anti-entropy scheduler (main.go, lines 154-211) *)

Definition len {A} (l : list A) : Z := Z.of_nat (length l).

(** The keys of the store in the order of stdpp's [map_to_list]; Go's
    [for key := range m.store] visits them in an order of its own. *)
Definition store_keys (m : LWWMap) : list string := (map_to_list (store m)).*1.

(** [selectRandomKeys].  Go leaves the iteration order of a map unspecified
    and [rand.Shuffle] draws from the ambient generator, so both are taken
    as parameters: [range_order] is the order in which [range] visits the
    keys, [shuffle] the rearrangement [rand.Shuffle] leaves in [keys]. *)
Definition selectRandomKeys (range_order shuffle : list string → list string)
    (m : LWWMap) (k : Z) : list string :=
  if (k <=? 0) || (Z.of_nat (size (store m)) =? 0) then []
  else
    let k := Z.min k (Z.of_nat (size (store m))) in
    let keys := range_order (store_keys m) in
    if k >=? len keys then keys
    else take (Z.to_nat k) (shuffle keys).

(** What one iteration of the loop of [sync] does to the outside world:
    it posts a batch to a peer, unless [rand.Intn] panics on an empty
    replica list.  The reply is only logged. *)
Inductive sync_outcome :=
| Panicked
| Posted (url : string) (operations : list Patch).

Definition snapshot (m : LWWMap) (selectedKeys : list string) : list Patch :=
  map (λ key,
        let data := fst (lookup_ok m key) in
        {| Key := key; Value := Data_Value data;
           Timestamp := Data_Timestamp data |}) selectedKeys.

(** One iteration of the [for] loop of [sync]; [intn] stands for
    [rand.Intn], which panics when its argument is not positive.  The sleep
    is left out, and no [Apply] runs between the selection of the keys and
    the reads [m.store[key]] of the snapshot. *)
Definition sync_iteration (range_order shuffle : list string → list string)
    (intn : Z → Z) (m : LWWMap) : sync_outcome :=
  let selectedKeys := selectRandomKeys range_order shuffle m 5 in
  let operations := snapshot m selectedKeys in
  if len (replicas m) <=? 0 then Panicked
  else
    match replicas m !! Z.to_nat (intn (len (replicas m))) with
    | None => Panicked
    | Some replica => Posted ("http://" +:+ replica +:+ "/patch") operations
    end.

(** The branch the loop body takes, read off the two [if]s of [Apply]:
    the first branch, the tie-break branch with the greater value, or
    neither.  [apply_op_store] and [apply_op_clock] relate it to [apply_op]. *)
Inductive verdict := Accepted | TieWon | Rejected.

Definition decide_op (m : LWWMap) (op : Patch) : verdict :=
  match store m !! Key op with
  | None => Accepted
  | Some existing =>
      if Data_Timestamp existing <? Timestamp op then Accepted
      else if Data_Timestamp existing =? Timestamp op then
        if string_gt (Value op) (Data_Value existing) then TieWon else Rejected
      else Rejected
  end.

(** [m.clock++] is executed for [op] exactly in the two branches that store
    it. *)
Definition increments (m : LWWMap) (op : Patch) : bool :=
  match decide_op m op with
  | Rejected => false
  | _ => true
  end.

(** No [m.clock++] of the batch is executed with the clock at the top of the
    [int] range, where Go wraps around to the bottom. *)
Fixpoint never_wraps (m : LWWMap) (ops : list Patch) : bool :=
  match ops with
  | [] => true
  | op :: ops =>
      negb (increments m op && (clock m =? Int64.max_int))
      && never_wraps (apply_op m op) ops
  end.

(** The timestamps of a batch are values of Go's [int], as the JSON decoder
    delivers them. *)
Definition int_stamps (ops : list Patch) : Prop :=
  Forall (λ op, Int64.in_range (Timestamp op)) ops.

(** The records of a store never carry a timestamp at or above the clock. *)
Definition stamps_below_clock (m : LWWMap) : Prop :=
  ∀ k d, store m !! k = Some d → Data_Timestamp d < clock m.

(** No stored record carries a negative timestamp. *)
Definition stamps_nonneg (m : LWWMap) : Prop :=
  ∀ k d, store m !! k = Some d → 0 ≤ Data_Timestamp d.

(** No two keys carry the same timestamp. *)
Definition stamps_distinct (m : LWWMap) : Prop :=
  ∀ k1 k2 d1 d2,
    store m !! k1 = Some d1 → store m !! k2 = Some d2 →
    Data_Timestamp d1 = Data_Timestamp d2 → k1 = k2.

(** ** HTTP handlers (main.go, lines 89-130) *)

(** What the handlers read of a request: its method and its body. *)
Record Request := mkRequest {
  Method : string;
  Body : string
}.

(** What a handler writes: [http.Error(w, message, code)], a bare
    [w.WriteHeader(code)], or a JSON-encoded [Data] under the implicit
    status 200. *)
Inductive Response :=
| HttpError (message : string) (code : Z)
| WriteHeader (code : Z)
| EncodeJSON (data : Data).

Definition MethodPost : string := "POST".
Definition StatusOK : Z := 200.
Definition StatusBadRequest : Z := 400.
Definition StatusNotFound : Z := 404.
Definition StatusMethodNotAllowed : Z := 405.

(** The handler [(m *LWWMap) Patch].  [decode] stands for
    [json.NewDecoder(r.Body).Decode(&operations)]: the decoded batch, or the
    text of the decoder's error. *)
Definition LWWMap_Patch (decode : string → string + list Patch)
    (m : LWWMap) (r : Request) : LWWMap * Response :=
  if negb (String.eqb (Method r) MethodPost) then
    (m, HttpError "Invalid method" StatusMethodNotAllowed)
  else
    match decode (Body r) with
    | inl err => (m, HttpError err StatusBadRequest)
    | inr operations => (Apply m operations, WriteHeader StatusOK)
    end.

(** The handler [(m *LWWMap) Get].  [decode] stands for the decoding of the
    body into a [Get] struct, of which only [Key] is read; [None] is a
    decoder error.  The handler does not touch the map. *)
Definition LWWMap_Get (decode : string → option string)
    (m : LWWMap) (r : Request) : Response :=
  if negb (String.eqb (Method r) MethodPost) then
    HttpError "Invalid method" StatusMethodNotAllowed
  else
    match decode (Body r) with
    | None => HttpError "Invalid request" StatusBadRequest
    | Some key =>
        match lookup_ok m key with
        | (data, true) => EncodeJSON data
        | (_, false) => HttpError "Key not found" StatusNotFound
        end
    end.

(** ** Process start (main.go, lines 213-228) *)

(** [strings.Split(s, ",")]: the pieces of [s] between its commas, a single
    piece [s] when it has none. *)
Fixpoint Split_comma (s : string) : list string :=
  match s with
  | EmptyString => [EmptyString]
  | String c rest =>
      if Ascii.eqb c "," then EmptyString :: Split_comma rest
      else
        match Split_comma rest with
        | piece :: pieces => String c piece :: pieces
        | [] => [String c EmptyString]
        end
  end.

(** [main] up to [NewLWWMap]: the map the node starts with, or [None] where
    [log.Fatal] ends the process.  [getenv] stands for [os.Getenv], which
    returns the empty string for an unset variable. *)
Definition main (getenv : string → string) : option LWWMap :=
  let nodeID := getenv "NODE_ID" in
  if String.eqb nodeID "" then None
  else
    let replicas : list string := [] in
    if negb (String.eqb (getenv "REPLICAS") "") then
      let replicas := (replicas ++ Split_comma (getenv "REPLICAS"))%list in
      Some (NewLWWMap nodeID replicas)
    else None.

(** ** Fixtures: patches and reachable states used by the examples *)

Definition node1 : LWWMap := NewLWWMap "1" ["replica2:8080"; "replica3:8080"].

(** The store of the spec's scenarios, [a → ("x", 5)], as [Apply] builds it:
    the clock is driven to 5 through another key, then ["a"] is written. *)
Definition node1_a_x_5 : LWWMap :=
  run node1 [[mkPatch "k" "v" 5]; [mkPatch "a" "x" 0]].

(** * Properties *)

(** ** Machine arithmetic *)

Lemma incr_no_overflow z :
  Int64.min_int ≤ z < Int64.max_int → Int64.incr z = z + 1.
Proof.
  unfold Int64.incr, Int64.wrap, Int64.min_int, Int64.max_int. intros Hz.
  rewrite Z.mod_small; lia.
Qed.

Lemma incr_overflow : Int64.incr Int64.max_int = Int64.min_int.
Proof. reflexivity. Qed.

(** ** The order on values *)

Lemma string_gt_irrefl s : string_gt s s = false.
Proof.
  unfold string_gt. pose proof (String.compare_antisym s s) as H.
  destruct (String.compare s s); simpl in H; congruence.
Qed.

Lemma string_gt_asym a b : string_gt a b = true → string_gt b a = false.
Proof.
  unfold string_gt. rewrite (String.compare_antisym a b).
  destruct (String.compare b a); simpl; congruence.
Qed.

Lemma string_gt_total a b : a ≠ b → string_gt a b = true ∨ string_gt b a = true.
Proof.
  intros Hne. unfold string_gt. rewrite (String.compare_antisym a b).
  destruct (String.compare b a) eqn:Hc; simpl; auto.
  apply String.compare_eq_iff in Hc. congruence.
Qed.

(** ** The loop body *)

Lemma Apply_nil m : Apply m [] = m.
Proof. reflexivity. Qed.

Lemma Apply_cons m op ops : Apply m (op :: ops) = Apply (apply_op m op) ops.
Proof. reflexivity. Qed.

Lemma Apply_app m ops1 ops2 : Apply m (ops1 ++ ops2) = Apply (Apply m ops1) ops2.
Proof. unfold Apply. apply fold_left_app. Qed.

Lemma run_concat batches : ∀ m, run m batches = Apply m (concat batches).
Proof.
  induction batches as [|b bs IH]; intros m; simpl; [done|].
  by rewrite Apply_app, <- IH.
Qed.

Lemma run_snoc m batches b : run m (batches ++ [b]) = Apply (run m batches) b.
Proof. unfold run. by rewrite fold_left_app. Qed.

Lemma apply_op_store m op :
  store (apply_op m op) =
  match decide_op m op with
  | Rejected => store m
  | _ => <[Key op := mkData (Value op) (clock m)]> (store m)
  end.
Proof.
  unfold apply_op, decide_op, lookup_ok.
  destruct (store m !! Key op) as [existing|]; simpl.
  - repeat case_match; simpl; done.
  - repeat case_match; simpl; done.
Qed.

Lemma apply_op_clock m op :
  clock (apply_op m op) =
  match decide_op m op with
  | Rejected => Z.max (clock m) (Timestamp op)
  | _ => Z.max (Int64.incr (clock m)) (Timestamp op)
  end.
Proof.
  unfold apply_op, decide_op, lookup_ok.
  destruct (store m !! Key op) as [existing|]; simpl.
  - repeat case_match; simpl; done.
  - done.
Qed.

Lemma apply_op_clock_ge_stamp m op : Timestamp op ≤ clock (apply_op m op).
Proof. rewrite apply_op_clock. destruct (decide_op m op); lia. Qed.

Lemma wrap_in_range z : Int64.in_range (Int64.wrap z).
Proof.
  unfold Int64.in_range, Int64.wrap, Int64.min_int, Int64.max_int.
  pose proof (Z.mod_pos_bound (z + 2 ^ 63) (2 ^ 64)). lia.
Qed.

(** The clock stays a value of [int] whatever happens. *)
Lemma apply_op_clock_in_range m op :
  Int64.in_range (clock m) → Int64.in_range (Timestamp op) →
  Int64.in_range (clock (apply_op m op)).
Proof.
  intros Hc Hts. rewrite apply_op_clock.
  pose proof (wrap_in_range (clock m + 1)) as Hw. fold (Int64.incr (clock m)) in Hw.
  unfold Int64.in_range in *. destruct (decide_op m op); lia.
Qed.

(** One patch whose increment, if any, does not wrap: the clock does not
    decrease and stays an [int], and the stored stamps stay below it. *)
Lemma apply_op_never_wraps m op :
  0 ≤ clock m ≤ Int64.max_int →
  Timestamp op ≤ Int64.max_int →
  increments m op && (clock m =? Int64.max_int) = false →
  clock m ≤ clock (apply_op m op) ≤ Int64.max_int ∧
  (stamps_below_clock m → stamps_below_clock (apply_op m op)).
Proof.
  intros Hc Hts Hnw. unfold increments in Hnw.
  assert (decide_op m op = Rejected ∨
          decide_op m op ≠ Rejected ∧ clock m < Int64.max_int) as Hcase.
  { destruct (decide_op m op); simpl in Hnw;
      [right|right|by left]; (split; [done|]);
      apply Z.eqb_neq in Hnw; lia. }
  split.
  - rewrite apply_op_clock.
    destruct Hcase as [->|[Hd Hlt]]; [lia|].
    assert (Int64.incr (clock m) = clock m + 1) as Hincr
      by (apply incr_no_overflow; unfold Int64.min_int; lia).
    destruct (decide_op m op); rewrite ?Hincr; lia.
  - intros Hinv k d. rewrite apply_op_store, apply_op_clock.
    destruct Hcase as [->|[Hd Hlt]].
    { intros Hk. apply Hinv in Hk. lia. }
    assert (Int64.incr (clock m) = clock m + 1) as Hincr
      by (apply incr_no_overflow; unfold Int64.min_int; lia).
    rewrite Hincr.
    assert (<[Key op := mkData (Value op) (clock m)]> (store m) !! k = Some d →
            Data_Timestamp d < Z.max (clock m + 1) (Timestamp op)) as Hins.
    { rewrite lookup_insert. case_decide.
      - intros [= <-]. simpl. lia.
      - intros Hk. apply Hinv in Hk. lia. }
    destruct (decide_op m op); [exact Hins|exact Hins|done].
Qed.

Lemma never_wraps_app ops1 : ∀ m ops2,
  never_wraps m (ops1 ++ ops2) =
  never_wraps m ops1 && never_wraps (Apply m ops1) ops2.
Proof.
  induction ops1 as [|op ops1 IH]; intros m ops2; [done|].
  rewrite <- app_comm_cons, Apply_cons. cbn [never_wraps].
  by rewrite IH, andb_assoc.
Qed.

(** A batch none of whose increments wraps. *)
Lemma Apply_never_wraps ops : ∀ m,
  0 ≤ clock m ≤ Int64.max_int →
  int_stamps ops →
  never_wraps m ops = true →
  clock m ≤ clock (Apply m ops) ≤ Int64.max_int ∧
  (∀ op, op ∈ ops → Timestamp op ≤ clock (Apply m ops)) ∧
  (stamps_below_clock m → stamps_below_clock (Apply m ops)).
Proof.
  induction ops as [|op ops IH]; intros m Hm Hops Hnw.
  - simpl. split; [lia|]. split; [|done].
    intros op Hin. by apply elem_of_nil in Hin.
  - apply Forall_cons in Hops as [[_ Hop] Hops].
    simpl in Hnw. apply andb_true_iff in Hnw as [Hhd Htl].
    apply negb_true_iff in Hhd.
    destruct (apply_op_never_wraps m op Hm Hop Hhd) as [Hstep Hinv1].
    rewrite Apply_cons.
    destruct (IH (apply_op m op)) as (Hclk & Hts & Hinv); [lia|done|done|].
    split; [lia|]. split.
    + intros op' [->|Hin]%elem_of_cons; [|by apply Hts].
      pose proof (apply_op_clock_ge_stamp m op). lia.
    + intros Hm0. by apply Hinv, Hinv1.
Qed.

(** A bound on the inputs that rules wrapping out: every timestamp is at
    most [c], and there is room above [c] for one increment per patch. *)
Lemma bounded_stamps_never_wrap ops : ∀ m c,
  0 ≤ clock m ≤ c →
  Forall (λ op, Timestamp op ≤ c) ops →
  c + len ops ≤ Int64.max_int →
  never_wraps m ops = true.
Proof.
  unfold len. induction ops as [|op ops IH]; intros m c Hm Hops Hroom; [done|].
  apply Forall_cons in Hops as [Hop Hops]. simpl length in Hroom. simpl.
  assert ((clock m =? Int64.max_int) = false) as Hne by (apply Z.eqb_neq; lia).
  rewrite Hne, andb_false_r. simpl.
  apply (IH _ (c + 1)).
  - destruct (apply_op_never_wraps m op) as [Hstep _];
      [lia|lia|by rewrite Hne, andb_false_r|].
    split; [lia|]. rewrite apply_op_clock.
    assert (Int64.incr (clock m) = clock m + 1) as Hincr
      by (apply incr_no_overflow; unfold Int64.min_int; lia).
    destruct (decide_op m op); rewrite ?Hincr; lia.
  - eapply Forall_impl; [exact Hops|]. simpl. intros; lia.
  - lia.
Qed.

Example node1_a_x_5_state :
  store node1_a_x_5 !! "a" = Some (mkData "x" 5) ∧ clock node1_a_x_5 = 6.
Proof. split; vm_compute; reflexivity. Qed.

(** ** Stale writes *)

(** C8: a patch whose timestamp is strictly below the timestamp of the
    record stored for its key, at whatever position of a batch, leaves the
    whole store as it was and sets the clock to the maximum of the clock
    and the patch's timestamp. *)
Theorem Apply_stale_rejected (m : LWWMap) (pre : list Patch) (op : Patch)
    (existing : Data) :
  store (Apply m pre) !! Key op = Some existing →
  Timestamp op < Data_Timestamp existing →
  store (Apply m (pre ++ [op])) = store (Apply m pre) ∧
  clock (Apply m (pre ++ [op])) = Z.max (clock (Apply m pre)) (Timestamp op).
Proof.
  intros Hex Hlt. rewrite Apply_app, Apply_cons, Apply_nil.
  rewrite apply_op_store, apply_op_clock. unfold decide_op. rewrite Hex.
  destruct (Z.ltb_spec (Data_Timestamp existing) (Timestamp op)); [lia|].
  destruct (Z.eqb_spec (Data_Timestamp existing) (Timestamp op)); [lia|].
  done.
Qed.

Lemma Apply_stale_rejected_witness :
  let pre := [mkPatch "k" "v" 5; mkPatch "a" "x" 0] in
  let op := mkPatch "a" "y" 3 in
  store (Apply node1 pre) !! Key op = Some (mkData "x" 5) ∧
  Timestamp op < Data_Timestamp (mkData "x" 5) ∧
  store (Apply node1 (pre ++ [op])) = store (Apply node1 pre) ∧
  clock (Apply node1 (pre ++ [op])) =
    Z.max (clock (Apply node1 pre)) (Timestamp op).
Proof.
  intros pre op.
  assert (store (Apply node1 pre) !! Key op = Some (mkData "x" 5)) as H1
    by (vm_compute; reflexivity).
  assert (Timestamp op < Data_Timestamp (mkData "x" 5)) as H2 by (simpl; lia).
  split; [exact H1|]. split; [exact H2|].
  exact (Apply_stale_rejected node1 pre op (mkData "x" 5) H1 H2).
Defined.

Example stale_scenario :
  let m := Apply node1_a_x_5 [mkPatch "a" "y" 3] in
  store m !! "a" = Some (mkData "x" 5) ∧ clock m = Z.max (clock node1_a_x_5) 3.
Proof. split; vm_compute; reflexivity. Qed.

(** ** The clock *)

(** C7 (amended): after any sequence of [Apply] calls starting from a new
    store in which no [m.clock++] is executed with the clock at 2^63 - 1
    (where Go's [int] wraps around), a further such call does not decrease
    the clock, and after it the clock is at least every timestamp handed in
    so far. *)
Theorem clock_monotone_unless_wrapped (node : string) (peers : list string)
    (batches : list (list Patch)) (b : list Patch) :
  int_stamps (concat (batches ++ [b])) →
  never_wraps (NewLWWMap node peers) (concat (batches ++ [b])) = true →
  clock (run (NewLWWMap node peers) batches) ≤
    clock (run (NewLWWMap node peers) (batches ++ [b])) ∧
  ∀ op, op ∈ concat (batches ++ [b]) →
    Timestamp op ≤ clock (run (NewLWWMap node peers) (batches ++ [b])).
Proof.
  intros Hty Hnw.
  assert (0 ≤ clock (NewLWWMap node peers) ≤ Int64.max_int) as H0
    by (unfold Int64.max_int; simpl; lia).
  split.
  - rewrite run_snoc, run_concat.
    rewrite concat_app in Hty, Hnw. simpl in Hty, Hnw.
    rewrite app_nil_r in Hty, Hnw.
    apply Forall_app in Hty as [Hpre Hb].
    rewrite never_wraps_app in Hnw. apply andb_true_iff in Hnw as [Hnw1 Hnw2].
    destruct (Apply_never_wraps (concat batches) (NewLWWMap node peers))
      as (Hclk & _ & _); [done|done|done|].
    destruct (Apply_never_wraps b (Apply (NewLWWMap node peers) (concat batches)))
      as (Hclk' & _ & _); [simpl in Hclk; lia|done|done|].
    lia.
  - rewrite run_concat.
    by destruct (Apply_never_wraps (concat (batches ++ [b]))
                   (NewLWWMap node peers)) as (_ & Hts & _).
Qed.

Lemma clock_monotone_unless_wrapped_witness :
  let batches := [[mkPatch "a" "x" 0]; [mkPatch "b" "v" (-1)]] in
  let b := [mkPatch "a" "y" 3] in
  int_stamps (concat (batches ++ [b])) ∧
  never_wraps node1 (concat (batches ++ [b])) = true ∧
  clock (run node1 batches) ≤ clock (run node1 (batches ++ [b])) ∧
  ∀ op, op ∈ concat (batches ++ [b]) →
    Timestamp op ≤ clock (run node1 (batches ++ [b])).
Proof.
  intros batches b.
  assert (int_stamps (concat (batches ++ [b]))) as Hty
    by (repeat constructor; vm_compute; discriminate).
  assert (never_wraps node1 (concat (batches ++ [b])) = true) as Hnw
    by (vm_compute; reflexivity).
  split; [exact Hty|]. split; [exact Hnw|].
  exact (clock_monotone_unless_wrapped "1" ["replica2:8080"; "replica3:8080"]
           batches b Hty Hnw).
Defined.

(** C7, as stated, fails at the top of the [int] range: a patch stamped
    2^63 - 1 drives the clock there, the next accepted write wraps
    [m.clock++], and the clock ends below where it was and below a
    timestamp handed in earlier. *)
Lemma clock_decreases_after_overflow :
  let p := mkPatch "k" "v" Int64.max_int in
  let before := run node1 [[p]] in
  let after := run node1 [[p]; [mkPatch "a" "x" 0]] in
  clock before = Int64.max_int ∧ clock after = 0 ∧
  ¬ (clock before ≤ clock after) ∧ ¬ (Timestamp p ≤ clock after).
Proof.
  intros p before after.
  assert (clock before = Int64.max_int) as Hb by (vm_compute; reflexivity).
  assert (clock after = 0) as Ha by (vm_compute; reflexivity).
  split; [exact Hb|]. split; [exact Ha|].
  rewrite Hb, Ha. subst p. unfold Int64.max_int. simpl Timestamp.
  split; lia.
Qed.

(** C10 (amended): starting from the empty store of [NewLWWMap], after
    every [Apply] call of a history in which no [m.clock++] is executed with
    the clock at 2^63 - 1 (where Go's [int] wraps around), every stored
    record's timestamp is strictly below the clock. *)
Theorem stored_stamps_below_clock (node : string) (peers : list string)
    (batches : list (list Patch)) :
  int_stamps (concat batches) →
  never_wraps (NewLWWMap node peers) (concat batches) = true →
  ∀ k d, store (run (NewLWWMap node peers) batches) !! k = Some d →
         Data_Timestamp d < clock (run (NewLWWMap node peers) batches).
Proof.
  intros Hty Hnw. rewrite run_concat.
  destruct (Apply_never_wraps (concat batches) (NewLWWMap node peers))
    as (_ & _ & Hinv); [unfold Int64.max_int; simpl; lia|done|done|].
  apply Hinv. intros k d Hk. simpl in Hk. by rewrite lookup_empty in Hk.
Qed.

Lemma stored_stamps_below_clock_witness :
  let batches := [[mkPatch "k" "v" 5]; [mkPatch "a" "x" 0; mkPatch "a" "z" 5]] in
  int_stamps (concat batches) ∧
  never_wraps node1 (concat batches) = true ∧
  ∀ k d, store (run node1 batches) !! k = Some d →
         Data_Timestamp d < clock (run node1 batches).
Proof.
  intros batches.
  assert (int_stamps (concat batches)) as Hty
    by (repeat constructor; vm_compute; discriminate).
  assert (never_wraps node1 (concat batches) = true) as Hnw
    by (vm_compute; reflexivity).
  split; [exact Hty|]. split; [exact Hnw|].
  exact (stored_stamps_below_clock "1" ["replica2:8080"; "replica3:8080"]
           batches Hty Hnw).
Defined.

(** C10, as stated, fails at the top of the [int] range: the record written
    while the clock is 2^63 - 1 is stamped 2^63 - 1, and the clock wraps and
    ends at 0. *)
Lemma stored_stamp_above_clock_after_overflow :
  let after := run node1 [[mkPatch "k" "v" Int64.max_int]; [mkPatch "b" "w" 0]] in
  store after !! "b" = Some (mkData "w" Int64.max_int) ∧ clock after = 0 ∧
  ¬ stamps_below_clock after.
Proof.
  intros after.
  assert (store after !! "b" = Some (mkData "w" Int64.max_int)) as Hb
    by (vm_compute; reflexivity).
  assert (clock after = 0) as Hc by (vm_compute; reflexivity).
  split; [done|]. split; [done|].
  intros Hinv. apply Hinv in Hb. rewrite Hc in Hb.
  unfold Int64.max_int in Hb. simpl in Hb. lia.
Qed.

(** ** The accept rule *)

Example accept_scenario :
  store (Apply node1 [mkPatch "a" "x" 0]) !! "a" = Some (mkData "x" 0) ∧
  clock (Apply node1 [mkPatch "a" "x" 0]) = 1.
Proof. split; vm_compute; reflexivity. Qed.

(** What the first branch of the loop body stores: the value of the patch
    under the clock read at the top of the loop, whatever timestamp the
    patch carries. *)
Lemma apply_op_accept m op :
  decide_op m op = Accepted →
  store (apply_op m op) !! Key op = Some (mkData (Value op) (clock m)) ∧
  clock (apply_op m op) = Z.max (Int64.incr (clock m)) (Timestamp op).
Proof.
  intros Hd. rewrite apply_op_store, apply_op_clock, Hd.
  by rewrite lookup_insert_eq.
Qed.

(** C4: on a new store the patch [{a, x, 7}] is accepted, and the record
    stored for it is stamped with the clock read at the top of the loop, 0,
    where the accept rule promises the patch's own timestamp, 7. *)
Theorem accepted_patch_stamped_with_clock :
  let op := mkPatch "a" "x" 7 in
  decide_op node1 op = Accepted ∧
  store (Apply node1 [op]) !! "a" = Some (mkData "x" 0) ∧
  store (Apply node1 [op]) !! "a" ≠ Some (mkData "x" (Timestamp op)) ∧
  clock (Apply node1 [op]) = 7.
Proof.
  intros op.
  assert (store (Apply node1 [op]) !! "a" = Some (mkData "x" 0)) as Ha
    by (vm_compute; reflexivity).
  split; [reflexivity|]. split; [exact Ha|]. split.
  - rewrite Ha. discriminate.
  - vm_compute. reflexivity.
Qed.

(** ** The local-write sentinel *)

Example sentinel_scenario :
  let m := Apply node1 [mkPatch "k" "v" 4] in
  clock m = 4 ∧
  store (Apply m [mkPatch "b" "v" (-1)]) !! "b" = Some (mkData "v" 4).
Proof. split; vm_compute; reflexivity. Qed.

(** C5: with [b → ("u", 0)] stored and the clock at 4, the local write
    [{b, v, -1}] resolves to 4, which is newer than 0, yet the comparison is
    made on the raw -1 and the write is dropped: the record stays
    [("u", 0)] instead of becoming [("v", 4)]. *)
Theorem sentinel_compared_unresolved :
  let m := Apply node1 [mkPatch "b" "u" 4] in
  let op := mkPatch "b" "v" (-1) in
  store m !! "b" = Some (mkData "u" 0) ∧ clock m = 4 ∧
  decide_op m op = Rejected ∧
  store (Apply m [op]) !! "b" = Some (mkData "u" 0) ∧
  store (Apply m [op]) !! "b" ≠ Some (mkData "v" 4).
Proof.
  intros m op.
  assert (store (Apply m [op]) !! "b" = Some (mkData "u" 0)) as Hb
    by (vm_compute; reflexivity).
  repeat split; try (vm_compute; reflexivity).
  rewrite Hb. discriminate.
Qed.

(** A local write to a key that is already stored is dropped whenever the
    stored timestamps are not negative, which [stamps_below_clock] and
    a clock that does not wrap guarantee. *)
Lemma sentinel_on_stored_key_rejected m op existing :
  store m !! Key op = Some existing →
  0 ≤ Data_Timestamp existing → Timestamp op < 0 →
  store (apply_op m op) = store m.
Proof.
  intros Hex Hpos Hneg. rewrite apply_op_store. unfold decide_op. rewrite Hex.
  destruct (Z.ltb_spec (Data_Timestamp existing) (Timestamp op)); [lia|].
  destruct (Z.eqb_spec (Data_Timestamp existing) (Timestamp op)); [lia|].
  done.
Qed.

(** ** The tie-break *)

Lemma apply_op_tie_won m op :
  decide_op m op = TieWon →
  store (apply_op m op) !! Key op = Some (mkData (Value op) (clock m)) ∧
  clock (apply_op m op) = Z.max (Int64.incr (clock m)) (Timestamp op).
Proof.
  intros Hd. rewrite apply_op_store, apply_op_clock, Hd.
  by rewrite lookup_insert_eq.
Qed.

Lemma apply_op_tie_equal_value m op existing :
  store m !! Key op = Some existing →
  Data_Timestamp existing = Timestamp op → Data_Value existing = Value op →
  store (apply_op m op) = store m.
Proof.
  intros Hex Hts Hv. rewrite apply_op_store. unfold decide_op.
  by rewrite Hex, Hts, Hv, Z.ltb_irrefl, Z.eqb_refl, string_gt_irrefl.
Qed.

(** C6: two patches for ["a"] with the same timestamp 5 and the values
    ["z"] and ["x"].  In the order z, x the second patch is not a tie at
    all, because the first was stored under the clock, 0: it is accepted as
    newer and the smaller value ["x"] survives; in the order x, z it is
    ["z"] that survives.  And on the store [a → ("x", 5)] with the clock at
    6 the tie-break win of [{a, z, 5}] stores [("z", 6)], not [("z", 5)]. *)
Theorem tie_break_depends_on_order :
  let pz := mkPatch "a" "z" 5 in
  let px := mkPatch "a" "x" 5 in
  store (Apply node1 [pz; px]) !! "a" = Some (mkData "x" 5) ∧
  store (Apply node1 [px; pz]) !! "a" = Some (mkData "z" 5) ∧
  decide_op node1_a_x_5 pz = TieWon ∧
  store (Apply node1_a_x_5 [pz]) !! "a" = Some (mkData "z" 6) ∧
  clock (Apply node1_a_x_5 [pz]) = clock node1_a_x_5 + 1.
Proof. intros pz px. repeat split; vm_compute; reflexivity. Qed.

(** ** Idempotence, commutativity, convergence *)

Lemma store_neq_at (m1 m2 : LWWMap) (k : string) :
  store m1 !! k ≠ store m2 !! k → store m1 ≠ store m2.
Proof. intros Hne Heq. apply Hne. by rewrite Heq. Qed.

(** C1: on a new store the batch [[{a, x, 5}]] applied once leaves
    [a → ("x", 0)]; applied a second time the same patch is newer than the
    record it stored itself and is accepted again, leaving [a → ("x", 5)]. *)
Theorem Apply_twice_differs_from_once :
  let batch := [mkPatch "a" "x" 5] in
  store (Apply node1 batch) !! "a" = Some (mkData "x" 0) ∧
  store (Apply (Apply node1 batch) batch) !! "a" = Some (mkData "x" 5) ∧
  store (Apply (Apply node1 batch) batch) ≠ store (Apply node1 batch).
Proof.
  intros batch.
  assert (store (Apply node1 batch) !! "a" = Some (mkData "x" 0)) as H1
    by (vm_compute; reflexivity).
  assert (store (Apply (Apply node1 batch) batch) !! "a" = Some (mkData "x" 5))
    as H2 by (vm_compute; reflexivity).
  split; [exact H1|]. split; [exact H2|].
  apply (store_neq_at _ _ "a"). rewrite H1, H2. discriminate.
Qed.

(** C2: with P1 = [{a, x, 5}], P2 = [{b, w, 1}] and P3 = [{a, y, 3}],
    applying [[P1, P2]] then [[P3]] ends with the value ["y"] for ["a"],
    applying [[P3]] then [[P1, P2]] ends with ["x"]. *)
Theorem Apply_batches_do_not_commute :
  let P1 := mkPatch "a" "x" 5 in
  let P2 := mkPatch "b" "w" 1 in
  let P3 := mkPatch "a" "y" 3 in
  store (run node1 [[P1; P2]; [P3]]) !! "a" = Some (mkData "y" 6) ∧
  store (run node1 [[P3]; [P1; P2]]) !! "a" = Some (mkData "x" 3) ∧
  store (run node1 [[P1; P2]; [P3]]) ≠ store (run node1 [[P3]; [P1; P2]]).
Proof.
  intros P1 P2 P3.
  assert (store (run node1 [[P1; P2]; [P3]]) !! "a" = Some (mkData "y" 6))
    as H1 by (vm_compute; reflexivity).
  assert (store (run node1 [[P3]; [P1; P2]]) !! "a" = Some (mkData "x" 3))
    as H2 by (vm_compute; reflexivity).
  split; [exact H1|]. split; [exact H2|].
  apply (store_neq_at _ _ "a"). rewrite H1, H2. discriminate.
Qed.

(** C3: three stores, each starting empty, receive the patches
    [{c, m, 2}] and [{c, n, 9}]: the first in that order, the second in the
    other order, the third in the other order with [{c, n, 9}] delivered
    once more.  They end with three different records for ["c"]. *)
Theorem replicas_do_not_converge :
  let Pm := mkPatch "c" "m" 2 in
  let Pn := mkPatch "c" "n" 9 in
  let replica1 := run (NewLWWMap "1" ["replica2:8080"; "replica3:8080"])
                      [[Pm]; [Pn]] in
  let replica2 := run (NewLWWMap "2" ["replica1:8080"; "replica3:8080"])
                      [[Pn]; [Pm]] in
  let replica3 := run (NewLWWMap "3" ["replica1:8080"; "replica2:8080"])
                      [[Pn]; [Pm]; [Pn]] in
  store replica1 !! "c" = Some (mkData "n" 2) ∧
  store replica2 !! "c" = Some (mkData "m" 9) ∧
  store replica3 !! "c" = Some (mkData "n" 10) ∧
  store replica1 ≠ store replica2 ∧
  store replica2 ≠ store replica3 ∧
  store replica1 ≠ store replica3.
Proof.
  intros Pm Pn replica1 replica2 replica3.
  assert (store replica1 !! "c" = Some (mkData "n" 2)) as H1
    by (vm_compute; reflexivity).
  assert (store replica2 !! "c" = Some (mkData "m" 9)) as H2
    by (vm_compute; reflexivity).
  assert (store replica3 !! "c" = Some (mkData "n" 10)) as H3
    by (vm_compute; reflexivity).
  split; [exact H1|]. split; [exact H2|]. split; [exact H3|].
  repeat split; apply (store_neq_at _ _ "c");
    rewrite ?H1, ?H2, ?H3; discriminate.
Qed.


(** ** The gossip snapshot *)

Lemma store_keys_NoDup m : NoDup (store_keys m).
Proof. apply NoDup_fst_map_to_list. Qed.

Lemma store_keys_length m : length (store_keys m) = size (store m).
Proof. unfold store_keys. by rewrite length_fmap, length_map_to_list. Qed.

Lemma elem_of_store_keys m k : k ∈ store_keys m ↔ is_Some (store m !! k).
Proof.
  unfold store_keys. rewrite list_elem_of_fmap. split.
  - intros ([k' d] & -> & Hin). apply elem_of_map_to_list in Hin. by exists d.
  - intros [d Hd]. exists (k, d). split; [done|]. by apply elem_of_map_to_list.
Qed.

Section Gossip.

Variables range_order shuffle : list string → list string.
Variable intn : Z → Z.

(** [range] visits every key once, [rand.Shuffle] permutes the slice, and
    [rand.Intn n] returns an index below a positive [n]. *)
Hypothesis range_order_perm : ∀ l, range_order l ≡ₚ l.
Hypothesis shuffle_perm : ∀ l, shuffle l ≡ₚ l.
Hypothesis intn_range : ∀ n, 0 < n → 0 ≤ intn n < n.

Lemma selectRandomKeys_sublist m k :
  ∃ keys, keys ≡ₚ store_keys m ∧
          selectRandomKeys range_order shuffle m k `sublist_of` keys.
Proof.
  unfold selectRandomKeys.
  destruct ((k <=? 0) || (Z.of_nat (size (store m)) =? 0)).
  - exists (store_keys m). split; [done|]. apply sublist_nil_l.
  - destruct (Z.min k (Z.of_nat (size (store m))) >=?
              len (range_order (store_keys m))).
    + exists (range_order (store_keys m)). split; [apply range_order_perm|done].
    + exists (shuffle (range_order (store_keys m))). split.
      * by rewrite shuffle_perm, range_order_perm.
      * apply sublist_take.
Qed.

Lemma selectRandomKeys_length m k :
  0 < k →
  length (selectRandomKeys range_order shuffle m k) =
  Z.to_nat (Z.min k (Z.of_nat (size (store m)))).
Proof.
  intros Hk. unfold selectRandomKeys, len.
  assert (length (range_order (store_keys m)) = size (store m)) as Hlen
    by (by rewrite range_order_perm, store_keys_length).
  destruct (Z.leb_spec k 0); [lia|]. simpl.
  destruct (Z.eqb_spec (Z.of_nat (size (store m))) 0) as [Hz|Hnz].
  - simpl. lia.
  - rewrite Hlen.
    destruct (Z.geb_spec (Z.min k (Z.of_nat (size (store m))))
                (Z.of_nat (size (store m)))).
    + lia.
    + rewrite length_take, shuffle_perm, Hlen. lia.
Qed.

Lemma selectRandomKeys_all m k :
  Z.of_nat (size (store m)) ≤ k →
  selectRandomKeys range_order shuffle m k ≡ₚ store_keys m.
Proof.
  intros Hk. unfold selectRandomKeys, len.
  assert (length (range_order (store_keys m)) = size (store m)) as Hlen
    by (by rewrite range_order_perm, store_keys_length).
  destruct (Z.eqb_spec (Z.of_nat (size (store m))) 0) as [Hz|Hnz].
  - rewrite orb_true_r. symmetry. apply Permutation_nil_r, nil_length_inv.
    rewrite store_keys_length. lia.
  - destruct (Z.leb_spec k 0); [lia|]. simpl. rewrite Hlen.
    destruct (Z.geb_spec (Z.min k (Z.of_nat (size (store m))))
                (Z.of_nat (size (store m)))); [|lia].
    apply range_order_perm.
Qed.

Lemma sync_iteration_posts m :
  replicas m ≠ [] →
  ∃ replica, replica ∈ replicas m ∧
    sync_iteration range_order shuffle intn m =
    Posted ("http://" +:+ replica +:+ "/patch")
           (snapshot m (selectRandomKeys range_order shuffle m 5)).
Proof.
  intros Hne. unfold sync_iteration.
  assert (0 < len (replicas m)) as Hpos.
  { unfold len. destruct (replicas m); [done|]. simpl length. lia. }
  destruct (Z.leb_spec (len (replicas m)) 0); [lia|].
  pose proof (intn_range _ Hpos) as Hi.
  destruct (lookup_lt_is_Some_2 (replicas m)
              (Z.to_nat (intn (len (replicas m))))) as [replica Hr].
  { unfold len in *. lia. }
  rewrite Hr. exists replica. split; [|done].
  by eapply list_elem_of_lookup_2.
Qed.

(** C9 (amended): an iteration snapshots [min 5 (size of the store)]
    distinct keys of the current store, all of them when the store has at
    most 5, none when it is empty; and on every store, the empty one
    included, it builds the batch of the snapshot and posts it to a randomly
    chosen peer. *)
Theorem gossip_snapshot_selection (m : LWWMap) :
  let keys := selectRandomKeys range_order shuffle m 5 in
  NoDup keys ∧
  length keys = Nat.min 5 (size (store m)) ∧
  (∀ k, k ∈ keys → is_Some (store m !! k)) ∧
  ((size (store m) ≤ 5)%nat → keys ≡ₚ store_keys m) ∧
  (store m = ∅ → keys = [] ∧ snapshot m keys = []) ∧
  (replicas m ≠ [] →
   ∃ replica, replica ∈ replicas m ∧
     sync_iteration range_order shuffle intn m =
     Posted ("http://" +:+ replica +:+ "/patch") (snapshot m keys)).
Proof.
  intros keys. subst keys.
  destruct (selectRandomKeys_sublist m 5) as (all & Hall & Hsub).
  split; [|split; [|split; [|split; [|split]]]].
  - eapply sublist_NoDup; [|exact Hsub]. rewrite Hall. apply store_keys_NoDup.
  - rewrite selectRandomKeys_length by lia. lia.
  - intros k Hk. apply elem_of_store_keys. rewrite <- Hall.
    eapply sublist_subseteq; [exact Hsub|exact Hk].
  - intros Hsz. apply selectRandomKeys_all. lia.
  - intros Hempty.
    assert (selectRandomKeys range_order shuffle m 5 = []) as Hnil.
    { apply nil_length_inv. rewrite selectRandomKeys_length by lia.
      rewrite Hempty, map_size_empty. reflexivity. }
    by rewrite Hnil.
  - apply sync_iteration_posts.
Qed.

End Gossip.

Lemma gossip_snapshot_selection_witness :
  let m := node1_a_x_5 in
  let keys := selectRandomKeys id reverse m 5 in
  (∀ l : list string, id l ≡ₚ l) ∧
  (∀ l : list string, reverse l ≡ₚ l) ∧
  (∀ n, 0 < n → 0 ≤ n - 1 < n) ∧
  NoDup keys ∧
  length keys = Nat.min 5 (size (store m)) ∧
  (∀ k, k ∈ keys → is_Some (store m !! k)) ∧
  ((size (store m) ≤ 5)%nat → keys ≡ₚ store_keys m) ∧
  (store m = ∅ → keys = [] ∧ snapshot m keys = []) ∧
  (replicas m ≠ [] →
   ∃ replica, replica ∈ replicas m ∧
     sync_iteration id reverse (λ n, n - 1) m =
     Posted ("http://" +:+ replica +:+ "/patch") (snapshot m keys)).
Proof.
  intros m keys.
  assert (∀ l : list string, id l ≡ₚ l) as Hrange by (intros l; reflexivity).
  assert (∀ l : list string, reverse l ≡ₚ l) as Hshuffle
    by (intros l; apply reverse_Permutation).
  assert (∀ n, 0 < n → 0 ≤ n - 1 < n) as Hintn by (intros n Hn; lia).
  split; [exact Hrange|]. split; [exact Hshuffle|]. split; [exact Hintn|].
  exact (gossip_snapshot_selection id reverse (λ n, n - 1)
           Hrange Hshuffle Hintn m).
Defined.

(** C9, as stated, fails on the empty store: the iteration does not stop
    there, it builds the empty batch and posts it to a peer. *)
Lemma sync_iteration_posts_on_empty_store :
  store node1 = ∅ ∧
  sync_iteration id reverse (λ n, n - 1) node1 =
  Posted "http://replica3:8080/patch" [] ∧
  ∀ url operations,
    sync_iteration id reverse (λ n, n - 1) node1 = Posted url operations →
    operations = [].
Proof.
  split; [reflexivity|].
  assert (sync_iteration id reverse (λ n, n - 1) node1 =
          Posted "http://replica3:8080/patch" []) as H
    by (vm_compute; reflexivity).
  split; [exact H|]. intros url operations. rewrite H. by intros [= _ <-].
Qed.

Example snapshot_of_six_keys :
  let m := Apply node1 [mkPatch "a" "1" 0; mkPatch "b" "2" 0; mkPatch "c" "3" 0;
                        mkPatch "d" "4" 0; mkPatch "e" "5" 0; mkPatch "f" "6" 0] in
  size (store m) = 6%nat ∧
  length (selectRandomKeys id reverse m 5) = 5%nat ∧
  ∃ url operations,
    sync_iteration id reverse (λ n, n - 1) m = Posted url operations ∧
    length operations = 5%nat.
Proof.
  intros m. split; [vm_compute; reflexivity|]. split; [vm_compute; reflexivity|].
  eexists _, _. split; [vm_compute; reflexivity|reflexivity].
Qed.

(** * Further properties of the merge engine *)

(** ** What a batch touches *)

Lemma decide_op_rejected_stored m op :
  decide_op m op = Rejected → is_Some (store m !! Key op).
Proof.
  unfold decide_op. destruct (store m !! Key op); [by eexists|discriminate].
Qed.

Lemma apply_op_dom m op :
  dom (store (apply_op m op)) = dom (store m) ∪ {[Key op]}.
Proof.
  rewrite apply_op_store.
  destruct (decide_op m op) eqn:Hd; rewrite ?dom_insert_L;
    [apply (comm_L (∪))..|].
  apply decide_op_rejected_stored, elem_of_dom in Hd.
  rewrite (comm_L (∪)). symmetry.
  by apply subseteq_union_1_L, singleton_subseteq_l.
Qed.

Lemma Apply_dom ops : ∀ m,
  dom (store (Apply m ops)) = dom (store m) ∪ list_to_set (Key <$> ops).
Proof.
  induction ops as [|op ops IH]; intros m.
  - by rewrite fmap_nil, list_to_set_nil, (right_id_L ∅ (∪)).
  - by rewrite Apply_cons, IH, apply_op_dom, fmap_cons, list_to_set_cons,
      (assoc_L (∪)).
Qed.

Lemma apply_op_other_key m op k :
  Key op ≠ k → store (apply_op m op) !! k = store m !! k.
Proof.
  intros Hne. rewrite apply_op_store.
  destruct (decide_op m op); by rewrite ?lookup_insert_ne.
Qed.

Lemma Apply_other_keys ops : ∀ m k,
  k ∉ (Key <$> ops) → store (Apply m ops) !! k = store m !! k.
Proof.
  induction ops as [|op ops IH]; intros m k Hk; [done|].
  rewrite fmap_cons in Hk. apply not_elem_of_cons in Hk as [Hne Hk].
  rewrite Apply_cons, IH by done. by apply apply_op_other_key.
Qed.

Lemma apply_op_fixed_fields m op :
  nodeID (apply_op m op) = nodeID m ∧ replicas (apply_op m op) = replicas m.
Proof.
  unfold apply_op. destruct (lookup_ok m (Key op)) as [existing exists_].
  repeat case_match; done.
Qed.

Lemma Apply_fixed_fields ops : ∀ m,
  nodeID (Apply m ops) = nodeID m ∧ replicas (Apply m ops) = replicas m.
Proof.
  induction ops as [|op ops IH]; intros m; [done|].
  rewrite Apply_cons. destruct (IH (apply_op m op)) as [-> ->].
  apply apply_op_fixed_fields.
Qed.

Lemma size_list_to_set_le (l : list string) :
  (size (list_to_set l : gset string) ≤ length l)%nat.
Proof.
  induction l as [|x l IH].
  - by rewrite list_to_set_nil, size_empty.
  - rewrite list_to_set_cons, size_union_alt, size_singleton. simpl.
    assert (size (list_to_set l ∖ {[x]} : gset string)
            ≤ size (list_to_set l : gset string))%nat
      by (apply subseteq_size, subseteq_difference_l; reflexivity).
    lia.
Qed.

(** X1: [Apply] never deletes a key, and after it every key named in the
    batch is stored, accepted or not: the keys afterwards are exactly the
    keys before together with the keys of the batch, and the store grows by
    at most one record per patch. *)
Theorem Apply_keys_grow (m : LWWMap) (ops : list Patch) :
  dom (store (Apply m ops)) = dom (store m) ∪ list_to_set (Key <$> ops) ∧
  (size (store m) ≤ size (store (Apply m ops)) ≤ size (store m) + length ops)%nat.
Proof.
  split; [apply Apply_dom|].
  rewrite <- !size_dom, Apply_dom. split.
  - apply subseteq_size, union_subseteq_l.
  - rewrite size_union_alt. apply Nat.add_le_mono_l.
    etrans; [apply subseteq_size, subseteq_difference_l; reflexivity|].
    etrans; [apply size_list_to_set_le|]. by rewrite length_fmap.
Qed.

(** X2: [Apply] writes only under the keys of its batch, and never to the
    node's identity or its replica list: a key no patch names keeps its
    record, or stays absent. *)
Theorem Apply_frame (m : LWWMap) (ops : list Patch) (k : string) :
  k ∉ (Key <$> ops) →
  store (Apply m ops) !! k = store m !! k ∧
  nodeID (Apply m ops) = nodeID m ∧
  replicas (Apply m ops) = replicas m.
Proof.
  intros Hk. split; [by apply Apply_other_keys|apply Apply_fixed_fields].
Qed.

Lemma Apply_frame_witness :
  let ops := [mkPatch "a" "y" 9; mkPatch "b" "w" (-1)] in
  ("k" ∉ (Key <$> ops)) ∧
  store (Apply node1_a_x_5 ops) !! "k" = store node1_a_x_5 !! "k" ∧
  nodeID (Apply node1_a_x_5 ops) = nodeID node1_a_x_5 ∧
  replicas (Apply node1_a_x_5 ops) = replicas node1_a_x_5.
Proof.
  intros ops.
  assert ("k" ∉ (Key <$> ops)) as Hk.
  { unfold ops. simpl. intros Hin. rewrite !elem_of_cons in Hin.
    destruct Hin as [Hin|[Hin|Hin]]; [discriminate..|by apply elem_of_nil in Hin]. }
  split; [exact Hk|]. exact (Apply_frame node1_a_x_5 ops "k" Hk).
Defined.

(** X3: [Apply] invents no value: a record found after a batch is the
    record that was there before, or carries the value of a patch of the
    batch for that very key. *)
Theorem Apply_value_provenance (m : LWWMap) (ops : list Patch) :
  ∀ k d, store (Apply m ops) !! k = Some d →
    store m !! k = Some d ∨
    ∃ op, op ∈ ops ∧ Key op = k ∧ Value op = Data_Value d.
Proof.
  revert m. induction ops as [|op ops IH]; intros m k d Hk; [by left|].
  rewrite Apply_cons in Hk. apply IH in Hk as [Hk|(op' & Hin & Hkey & Hval)].
  - rewrite apply_op_store in Hk.
    assert (<[Key op := mkData (Value op) (clock m)]> (store m) !! k = Some d →
            store m !! k = Some d ∨
            ∃ op', op' ∈ op :: ops ∧ Key op' = k ∧ Value op' = Data_Value d)
      as Hins.
    { rewrite lookup_insert. case_decide as Heq.
      - intros [= <-]. right. exists op. split; [apply elem_of_cons; by left|done].
      - by left. }
    destruct (decide_op m op); [by apply Hins|by apply Hins|by left].
  - right. exists op'. split; [apply elem_of_cons; by right|done].
Qed.

Lemma Apply_value_provenance_witness :
  let ops := [mkPatch "a" "y" 9; mkPatch "b" "w" (-1)] in
  store (Apply node1_a_x_5 ops) !! "a" = Some (mkData "y" 6) ∧
  (store node1_a_x_5 !! "a" = Some (mkData "y" 6) ∨
   ∃ op, op ∈ ops ∧ Key op = "a" ∧ Value op = Data_Value (mkData "y" 6)).
Proof.
  intros ops.
  assert (store (Apply node1_a_x_5 ops) !! "a" = Some (mkData "y" 6)) as Ha
    by (vm_compute; reflexivity).
  split; [exact Ha|].
  exact (Apply_value_provenance node1_a_x_5 ops "a" (mkData "y" 6) Ha).
Defined.


(** X5: line 85 runs for every patch, so even when the increment wraps the
    clock ends a non-empty batch at or above the timestamp of its last
    patch, and it stays a value of [int] whenever the clock and the
    timestamps handed in are. *)
Theorem Apply_clock_covers_last (m : LWWMap) (ops : list Patch) (op : Patch) :
  Timestamp op ≤ clock (Apply m (ops ++ [op])) ∧
  (Int64.in_range (clock m) → int_stamps (ops ++ [op]) →
   Int64.in_range (clock (Apply m (ops ++ [op])))).
Proof.
  split.
  - rewrite Apply_app, Apply_cons, Apply_nil. apply apply_op_clock_ge_stamp.
  - generalize (ops ++ [op])%list. clear ops op. intros ops. revert m.
    induction ops as [|op ops IH]; intros m Hc Hops; [done|].
    apply Forall_cons in Hops as [Hop Hops]. rewrite Apply_cons.
    apply IH; [|done]. by apply apply_op_clock_in_range.
Qed.

(** ** Timestamps as a local sequence *)

Lemma apply_op_stamps_distinct m op :
  0 ≤ clock m ≤ Int64.max_int →
  increments m op && (clock m =? Int64.max_int) = false →
  stamps_below_clock m → stamps_distinct m → stamps_distinct (apply_op m op).
Proof.
  intros Hc Hnw Hbelow Hdist k1 k2 d1 d2. rewrite apply_op_store.
  destruct (decide_op m op) eqn:Hd; try apply Hdist;
    rewrite !lookup_insert; repeat case_decide; subst;
    intros H1 H2 Heq; simplify_eq; simpl in *; try done;
    try (by eapply Hdist);
    match goal with
    | H : store m !! _ = Some ?d |- _ => apply Hbelow in H; lia
    end.
Qed.

(** X6: on a node started empty whose clock never wrapped, no two keys
    carry the same timestamp: each stored record is stamped with the clock,
    which has moved on before the next record is stored. *)
Theorem stored_stamps_distinct (node : string) (peers : list string)
    (batches : list (list Patch)) :
  int_stamps (concat batches) →
  never_wraps (NewLWWMap node peers) (concat batches) = true →
  stamps_distinct (run (NewLWWMap node peers) batches).
Proof.
  intros Hty Hnw. rewrite run_concat.
  assert (0 ≤ clock (NewLWWMap node peers) ≤ Int64.max_int) as Hc
    by (unfold Int64.max_int; simpl; lia).
  assert (stamps_below_clock (NewLWWMap node peers) ∧
          stamps_distinct (NewLWWMap node peers)) as Hinv.
  { split; intros k; intros; simplify_map_eq. }
  revert Hc Hinv Hty Hnw. generalize (NewLWWMap node peers) as m.
  induction (concat batches) as [|op ops IH]; intros m Hc [Hb Hd] Hty Hnw;
    [done|].
  apply Forall_cons in Hty as [[_ Hop] Hty].
  simpl in Hnw. apply andb_true_iff in Hnw as [Hhd Htl].
  apply negb_true_iff in Hhd.
  destruct (apply_op_never_wraps m op Hc Hop Hhd) as [Hstep Hb'].
  rewrite Apply_cons. apply IH; [lia| |done|done].
  split; [by apply Hb'|by apply apply_op_stamps_distinct].
Qed.

Lemma stored_stamps_distinct_witness :
  let batches := [[mkPatch "k" "v" 5]; [mkPatch "a" "x" 0; mkPatch "b" "z" 5]] in
  int_stamps (concat batches) ∧
  never_wraps node1 (concat batches) = true ∧
  stamps_distinct (run node1 batches).
Proof.
  intros batches.
  assert (int_stamps (concat batches)) as Hty
    by (repeat constructor; vm_compute; discriminate).
  assert (never_wraps node1 (concat batches) = true) as Hnw
    by (vm_compute; reflexivity).
  split; [exact Hty|]. split; [exact Hnw|].
  exact (stored_stamps_distinct "1" ["replica2:8080"; "replica3:8080"]
           batches Hty Hnw).
Defined.

(** X7: a patch stamped at or above the receiver's clock always takes the
    key: with every stored timestamp below the clock, it is stored whatever
    value the key held, under the receiver's clock. *)
Theorem patch_at_clock_is_stored (m : LWWMap) (op : Patch) :
  stamps_below_clock m → clock m ≤ Timestamp op →
  store (Apply m [op]) !! Key op = Some (mkData (Value op) (clock m)).
Proof.
  intros Hbelow Hts. rewrite Apply_cons, Apply_nil, apply_op_store.
  assert (decide_op m op = Accepted) as ->; [|by rewrite lookup_insert_eq].
  unfold decide_op. destruct (store m !! Key op) as [existing|] eqn:Hex; [|done].
  apply Hbelow in Hex.
  destruct (Z.ltb_spec (Data_Timestamp existing) (Timestamp op)); [done|lia].
Qed.

Lemma node1_a_x_5_stamps_below_clock : stamps_below_clock node1_a_x_5.
Proof.
  unfold node1_a_x_5. rewrite run_concat.
  destruct (Apply_never_wraps
              (concat [[mkPatch "k" "v" 5]; [mkPatch "a" "x" 0]]) node1)
    as (_ & _ & Hinv).
  - vm_compute. split; discriminate.
  - repeat constructor; vm_compute; discriminate.
  - vm_compute. reflexivity.
  - apply Hinv. intros k d Hk. simpl in Hk. by rewrite lookup_empty in Hk.
Qed.

Lemma patch_at_clock_is_stored_witness :
  let op := mkPatch "a" "b" 6 in
  stamps_below_clock node1_a_x_5 ∧ clock node1_a_x_5 ≤ Timestamp op ∧
  store (Apply node1_a_x_5 [op]) !! Key op =
    Some (mkData (Value op) (clock node1_a_x_5)).
Proof.
  intros op.
  assert (clock node1_a_x_5 ≤ Timestamp op) as Hts by (vm_compute; discriminate).
  split; [exact node1_a_x_5_stamps_below_clock|]. split; [exact Hts|].
  exact (patch_at_clock_is_stored node1_a_x_5 op
           node1_a_x_5_stamps_below_clock Hts).
Defined.

(** ** Local writes *)

Lemma apply_op_stamps_nonneg m op :
  0 ≤ clock m → stamps_nonneg m → stamps_nonneg (apply_op m op).
Proof.
  intros Hc Hinv k d. rewrite apply_op_store.
  assert (<[Key op := mkData (Value op) (clock m)]> (store m) !! k = Some d →
          0 ≤ Data_Timestamp d) as Hins.
  { rewrite lookup_insert. case_decide; [by intros [= <-]|apply Hinv]. }
  destruct (decide_op m op); [exact Hins|exact Hins|apply Hinv].
Qed.

Lemma sentinels_keep_records ops : ∀ m,
  0 ≤ clock m ≤ Int64.max_int → stamps_nonneg m →
  Forall (λ op, Timestamp op < 0) ops →
  never_wraps m ops = true →
  stamps_nonneg (Apply m ops) ∧
  ∀ k d, store m !! k = Some d → store (Apply m ops) !! k = Some d.
Proof.
  induction ops as [|op ops IH]; intros m Hc Hinv Hneg Hnw; [done|].
  apply Forall_cons in Hneg as [Hop Hneg].
  simpl in Hnw. apply andb_true_iff in Hnw as [Hhd Htl].
  apply negb_true_iff in Hhd.
  destruct (apply_op_never_wraps m op Hc) as [Hstep _];
    [unfold Int64.max_int; lia|done|].
  rewrite Apply_cons.
  destruct (IH (apply_op m op)) as [Hinv' Hkeep];
    [lia|apply apply_op_stamps_nonneg; [lia|done]|done|done|].
  split; [done|]. intros k d Hk. apply Hkeep.
  destruct (decide (Key op = k)) as [<-|Hne].
  - by rewrite (sentinel_on_stored_key_rejected m op d Hk (Hinv _ _ Hk) Hop).
  - by rewrite apply_op_other_key.
Qed.


(** X8: a local write (negative timestamp) never replaces a record: on a
    node whose stored timestamps are not negative and whose clock does not
    wrap during the batch, a batch of local writes leaves every record that
    was stored as it was, and only adds records for keys that were absent. *)
Theorem local_writes_only_insert (m : LWWMap) (ops : list Patch) :
  0 ≤ clock m ≤ Int64.max_int → stamps_nonneg m →
  Forall (λ op, Timestamp op < 0) ops →
  never_wraps m ops = true →
  ∀ k d, store m !! k = Some d → store (Apply m ops) !! k = Some d.
Proof.
  intros Hc Hinv Hneg Hnw. by apply sentinels_keep_records.
Qed.

Lemma node1_a_x_5_stamps_nonneg : stamps_nonneg node1_a_x_5.
Proof.
  intros k d Hk.
  destruct (decide (k = "a")) as [->|Ha]; [|destruct (decide (k = "k")) as [->|Hkk]].
  - vm_compute in Hk. injection Hk as <-. simpl. lia.
  - vm_compute in Hk. injection Hk as <-. simpl. lia.
  - assert (k ∈ dom (store node1_a_x_5)) as Hin by (apply elem_of_dom; by eexists).
    unfold node1_a_x_5 in Hin. rewrite run_concat, Apply_dom in Hin.
    rewrite elem_of_union, elem_of_list_to_set, list_elem_of_fmap in Hin.
    destruct Hin as [Hin|(op & -> & Hin)].
    + apply elem_of_dom in Hin as [d' Hd']. simpl in Hd'.
      by rewrite lookup_empty in Hd'.
    + simpl in Hin. rewrite !elem_of_cons in Hin.
      destruct Hin as [->|[->|Hin]]; [done|done|by apply elem_of_nil in Hin].
Qed.

Lemma local_writes_only_insert_witness :
  let ops := [mkPatch "a" "y" (-1); mkPatch "b" "w" (-1)] in
  0 ≤ clock node1_a_x_5 ≤ Int64.max_int ∧ stamps_nonneg node1_a_x_5 ∧
  Forall (λ op, Timestamp op < 0) ops ∧
  never_wraps node1_a_x_5 ops = true ∧
  ∀ k d, store node1_a_x_5 !! k = Some d →
         store (Apply node1_a_x_5 ops) !! k = Some d.
Proof.
  intros ops.
  assert (0 ≤ clock node1_a_x_5 ≤ Int64.max_int) as Hc
    by (vm_compute; split; discriminate).
  assert (Forall (λ op, Timestamp op < 0) ops) as Hneg
    by (repeat constructor).
  assert (never_wraps node1_a_x_5 ops = true) as Hnw by (vm_compute; reflexivity).
  split; [exact Hc|]. split; [exact node1_a_x_5_stamps_nonneg|].
  split; [exact Hneg|]. split; [exact Hnw|].
  exact (local_writes_only_insert node1_a_x_5 ops Hc
           node1_a_x_5_stamps_nonneg Hneg Hnw).
Defined.



(** * Further properties of the scheduler *)

Lemma snapshot_keys m ks : Key <$> snapshot m ks = ks.
Proof.
  unfold snapshot. induction ks as [|k ks IH]; [done|].
  simpl. f_equal. exact IH.
Qed.

Lemma snapshot_records m ks op :
  (∀ k, k ∈ ks → is_Some (store m !! k)) → op ∈ snapshot m ks →
  store m !! Key op = Some (mkData (Value op) (Timestamp op)).
Proof.
  intros Hks Hin. unfold snapshot in Hin.
  apply list_elem_of_fmap in Hin as (k & -> & Hk).
  destruct (Hks k Hk) as [[v t] Hd]. unfold lookup_ok. simpl. by rewrite Hd.
Qed.

Lemma sync_iteration_Posted_inv range_order shuffle intn m url ops :
  sync_iteration range_order shuffle intn m = Posted url ops →
  ops = snapshot m (selectRandomKeys range_order shuffle m 5) ∧
  ∃ replica, replica ∈ replicas m ∧ url = "http://" +:+ replica +:+ "/patch".
Proof.
  unfold sync_iteration.
  destruct (len (replicas m) <=? 0); [discriminate|].
  destruct (replicas m !! Z.to_nat (intn (len (replicas m))))
    as [replica|] eqn:Hr; [|discriminate].
  intros [= <- <-]. split; [done|]. exists replica. split; [|done].
  by eapply list_elem_of_lookup_2.
Qed.

(** A node's own record, handed back to it, changes nothing. *)
Lemma apply_op_own_record m k d :
  store m !! k = Some d → Data_Timestamp d ≤ clock m →
  apply_op m (mkPatch k (Data_Value d) (Data_Timestamp d)) = m.
Proof.
  intros Hk Hle. unfold apply_op, lookup_ok. simpl. rewrite Hk.
  rewrite Z.ltb_irrefl, Z.eqb_refl, string_gt_irrefl. simpl.
  unfold set_clock. rewrite Z.max_l by lia. by destruct m.
Qed.

Lemma Apply_own_snapshot m ks :
  stamps_below_clock m → (∀ k, k ∈ ks → is_Some (store m !! k)) →
  Apply m (snapshot m ks) = m.
Proof.
  intros Hbelow. induction ks as [|k ks IH]; intros Hks; [done|].
  destruct (Hks k) as [d Hd]; [apply elem_of_cons; by left|].
  assert (snapshot m (k :: ks) =
          mkPatch k (Data_Value d) (Data_Timestamp d) :: snapshot m ks) as ->.
  { unfold snapshot, lookup_ok. simpl. by rewrite Hd. }
  rewrite Apply_cons.
  rewrite apply_op_own_record; [|done|apply Hbelow in Hd; lia].
  apply IH. intros k' Hk'. apply Hks, elem_of_cons. by right.
Qed.

(** The first write to each of several distinct keys is always accepted. *)
Lemma Apply_fresh_keys ops : ∀ p,
  NoDup (Key <$> ops) → (∀ op, op ∈ ops → store p !! Key op = None) →
  ∀ op, op ∈ ops →
    ∃ stamp, store (Apply p ops) !! Key op = Some (mkData (Value op) stamp).
Proof.
  induction ops as [|op0 ops IH]; intros p Hnd Hfresh op Hin.
  { by apply elem_of_nil in Hin. }
  rewrite fmap_cons in Hnd. apply NoDup_cons in Hnd as [Hnotin Hnd].
  rewrite Apply_cons. apply elem_of_cons in Hin as [->|Hin].
  - exists (clock p). rewrite Apply_other_keys by done.
    rewrite apply_op_store. unfold decide_op.
    rewrite (Hfresh op0) by (apply elem_of_cons; by left).
    by rewrite lookup_insert_eq.
  - apply IH; [done| |done]. intros op' Hin'.
    rewrite apply_op_other_key.
    + apply Hfresh, elem_of_cons. by right.
    + intros Heq. apply Hnotin. rewrite Heq. apply list_elem_of_fmap.
      by exists op'.
Qed.

Section GossipRounds.

Variables range_order shuffle : list string → list string.
Variable intn : Z → Z.

Hypothesis range_order_perm : ∀ l, range_order l ≡ₚ l.
Hypothesis shuffle_perm : ∀ l, shuffle l ≡ₚ l.
Hypothesis intn_range : ∀ n, 0 < n → 0 ≤ intn n < n.

Lemma selected_keys_stored m k key :
  key ∈ selectRandomKeys range_order shuffle m k → is_Some (store m !! key).
Proof.
  intros Hin.
  destruct (selectRandomKeys_sublist range_order shuffle range_order_perm
              shuffle_perm m k) as (all & Hall & Hsub).
  apply elem_of_store_keys. rewrite <- Hall.
  eapply sublist_subseteq; [exact Hsub|exact Hin].
Qed.

Lemma selected_keys_NoDup m k : NoDup (selectRandomKeys range_order shuffle m k).
Proof.
  destruct (selectRandomKeys_sublist range_order shuffle range_order_perm
              shuffle_perm m k) as (all & Hall & Hsub).
  eapply sublist_NoDup; [|exact Hsub]. rewrite Hall. apply store_keys_NoDup.
Qed.

Lemma posted_batch_sound m url ops :
  sync_iteration range_order shuffle intn m = Posted url ops →
  NoDup (Key <$> ops) ∧
  ∀ op, op ∈ ops → store m !! Key op = Some (mkData (Value op) (Timestamp op)).
Proof.
  intros Hpost. apply sync_iteration_Posted_inv in Hpost as (-> & _).
  rewrite snapshot_keys. split; [apply selected_keys_NoDup|].
  intros op. apply snapshot_records. intros key. apply selected_keys_stored.
Qed.

(** X10: [selectRandomKeys] for any [k], not only the 5 of [sync]: the
    result never repeats a key, holds only keys of the store, is empty for
    [k ≤ 0], and otherwise has [min k (size of the store)] keys. *)
Theorem selectRandomKeys_any_k (m : LWWMap) (k : Z) :
  let keys := selectRandomKeys range_order shuffle m k in
  NoDup keys ∧
  (∀ key, key ∈ keys → is_Some (store m !! key)) ∧
  len keys = Z.max 0 (Z.min k (Z.of_nat (size (store m)))) ∧
  (k ≤ 0 → keys = []).
Proof.
  intros keys. subst keys.
  split; [apply selected_keys_NoDup|].
  split; [intros key; apply selected_keys_stored|].
  destruct (Z.leb_spec k 0) as [Hk|Hk].
  - assert (selectRandomKeys range_order shuffle m k = []) as ->.
    { unfold selectRandomKeys.
      by destruct (Z.leb_spec k 0); [|lia]. }
    split; [unfold len; simpl; lia|done].
  - split; [|lia]. unfold len.
    rewrite (selectRandomKeys_length range_order shuffle range_order_perm
               shuffle_perm) by done.
    lia.
Qed.

(** X11: what an iteration posts: a batch of at most 5 patches with
    pairwise different keys, each the record the store holds for its key,
    value and stored timestamp alike, addressed to the [/patch] endpoint of
    one of the configured replicas. *)
Theorem sync_iteration_posts_own_records (m : LWWMap) (url : string)
    (ops : list Patch) :
  sync_iteration range_order shuffle intn m = Posted url ops →
  NoDup (Key <$> ops) ∧ (length ops ≤ 5)%nat ∧
  (∀ op, op ∈ ops →
     store m !! Key op = Some (mkData (Value op) (Timestamp op))) ∧
  ∃ replica, replica ∈ replicas m ∧ url = "http://" +:+ replica +:+ "/patch".
Proof.
  intros Hpost. destruct (posted_batch_sound m url ops Hpost) as [Hnd Hrec].
  apply sync_iteration_Posted_inv in Hpost as (-> & Hurl).
  split; [exact Hnd|]. split; [|split; [exact Hrec|exact Hurl]].
  unfold snapshot. rewrite length_map.
  rewrite (selectRandomKeys_length range_order shuffle range_order_perm
             shuffle_perm) by lia.
  lia.
Qed.


(** X13: a batch posted by a node and delivered back to that node changes
    nothing, neither store nor clock, as long as its stored timestamps are
    below its clock. *)
Theorem own_gossip_is_noop (m : LWWMap) (url : string) (ops : list Patch) :
  sync_iteration range_order shuffle intn m = Posted url ops →
  stamps_below_clock m →
  Apply m ops = m.
Proof.
  intros Hpost Hbelow.
  apply sync_iteration_Posted_inv in Hpost as (-> & _).
  apply Apply_own_snapshot; [done|]. intros key. apply selected_keys_stored.
Qed.

(** X14: a batch posted by a node and delivered to a peer that holds none
    of its keys installs every value of the batch at the peer: afterwards
    the peer holds, for each patch, the sender's value under that key. *)
Theorem gossip_installs_values (m p : LWWMap) (url : string) (ops : list Patch) :
  sync_iteration range_order shuffle intn m = Posted url ops →
  (∀ op, op ∈ ops → store p !! Key op = None) →
  ∀ op, op ∈ ops →
    Data_Value <$> store (Apply p ops) !! Key op =
    Data_Value <$> store m !! Key op.
Proof.
  intros Hpost Hfresh op Hin.
  destruct (posted_batch_sound m url ops Hpost) as [Hnd Hrec].
  destruct (Apply_fresh_keys ops p Hnd Hfresh op Hin) as [stamp ->].
  by rewrite (Hrec op Hin).
Qed.

End GossipRounds.

(** The oracles of the examples: [range] in stdpp's order, a shuffle that
    reverses, and an [Intn] that picks the last index. *)
Lemma id_is_permutation : ∀ l : list string, id l ≡ₚ l.
Proof. intros l. reflexivity. Qed.

Lemma reverse_is_permutation : ∀ l : list string, reverse l ≡ₚ l.
Proof. intros l. apply reverse_Permutation. Qed.


Lemma selectRandomKeys_any_k_witness :
  let m := node1_a_x_5 in
  let keys := selectRandomKeys id reverse m 1 in
  (∀ l : list string, id l ≡ₚ l) ∧ (∀ l : list string, reverse l ≡ₚ l) ∧
  NoDup keys ∧
  (∀ key, key ∈ keys → is_Some (store m !! key)) ∧
  len keys = Z.max 0 (Z.min 1 (Z.of_nat (size (store m)))) ∧
  (1 ≤ 0 → keys = []).
Proof.
  intros m keys.
  split; [exact id_is_permutation|]. split; [exact reverse_is_permutation|].
  exact (selectRandomKeys_any_k id reverse id_is_permutation
           reverse_is_permutation m 1).
Defined.

Lemma sync_iteration_posts_own_records_witness :
  let m := node1_a_x_5 in
  let url := "http://replica3:8080/patch" in
  let ops := [mkPatch "k" "v" 0; mkPatch "a" "x" 5] in
  (∀ l : list string, id l ≡ₚ l) ∧ (∀ l : list string, reverse l ≡ₚ l) ∧
  sync_iteration id reverse (λ n, n - 1) m = Posted url ops ∧
  NoDup (Key <$> ops) ∧ (length ops ≤ 5)%nat ∧
  (∀ op, op ∈ ops →
     store m !! Key op = Some (mkData (Value op) (Timestamp op))) ∧
  ∃ replica, replica ∈ replicas m ∧ url = "http://" +:+ replica +:+ "/patch".
Proof.
  intros m url ops.
  assert (sync_iteration id reverse (λ n, n - 1) m = Posted url ops) as Hpost
    by (vm_compute; reflexivity).
  split; [exact id_is_permutation|]. split; [exact reverse_is_permutation|].
  split; [exact Hpost|].
  exact (sync_iteration_posts_own_records id reverse (λ n, n - 1)
           id_is_permutation reverse_is_permutation m url ops Hpost).
Defined.


Lemma own_gossip_is_noop_witness :
  let m := node1_a_x_5 in
  let url := "http://replica3:8080/patch" in
  let ops := [mkPatch "k" "v" 0; mkPatch "a" "x" 5] in
  (∀ l : list string, id l ≡ₚ l) ∧ (∀ l : list string, reverse l ≡ₚ l) ∧
  sync_iteration id reverse (λ n, n - 1) m = Posted url ops ∧
  stamps_below_clock m ∧
  Apply m ops = m.
Proof.
  intros m url ops.
  assert (sync_iteration id reverse (λ n, n - 1) m = Posted url ops) as Hpost
    by (vm_compute; reflexivity).
  split; [exact id_is_permutation|]. split; [exact reverse_is_permutation|].
  split; [exact Hpost|]. split; [exact node1_a_x_5_stamps_below_clock|].
  exact (own_gossip_is_noop id reverse (λ n, n - 1) id_is_permutation
           reverse_is_permutation m url ops Hpost
           node1_a_x_5_stamps_below_clock).
Defined.

Lemma gossip_installs_values_witness :
  let m := node1_a_x_5 in
  let p := Apply (NewLWWMap "2" ["replica1:8080"; "replica3:8080"])
                 [mkPatch "q" "r" 2] in
  let url := "http://replica3:8080/patch" in
  let ops := [mkPatch "k" "v" 0; mkPatch "a" "x" 5] in
  (∀ l : list string, id l ≡ₚ l) ∧ (∀ l : list string, reverse l ≡ₚ l) ∧
  sync_iteration id reverse (λ n, n - 1) m = Posted url ops ∧
  (∀ op, op ∈ ops → store p !! Key op = None) ∧
  ∀ op, op ∈ ops →
    Data_Value <$> store (Apply p ops) !! Key op =
    Data_Value <$> store m !! Key op.
Proof.
  intros m p url ops.
  assert (sync_iteration id reverse (λ n, n - 1) m = Posted url ops) as Hpost
    by (vm_compute; reflexivity).
  assert (∀ op, op ∈ ops → store p !! Key op = None) as Hfresh.
  { intros op Hin. unfold ops in Hin. rewrite !elem_of_cons in Hin.
    destruct Hin as [->|[->|Hin]]; [vm_compute; reflexivity..|].
    by apply elem_of_nil in Hin. }
  split; [exact id_is_permutation|]. split; [exact reverse_is_permutation|].
  split; [exact Hpost|]. split; [exact Hfresh|].
  exact (gossip_installs_values id reverse (λ n, n - 1) id_is_permutation
           reverse_is_permutation m p url ops Hpost Hfresh).
Defined.

(** * Process start *)

Lemma Split_comma_nonempty s : Split_comma s ≠ [].
Proof.
  destruct s as [|c rest]; simpl; [done|].
  destruct (Ascii.eqb c ","); [done|]. by destruct (Split_comma rest).
Qed.

Lemma Split_comma_join s : String.concat "," (Split_comma s) = s.
Proof.
  induction s as [|c rest IH]; [done|]. simpl.
  destruct (Ascii.eqb_spec c ",") as [->|Hne].
  - pose proof (Split_comma_nonempty rest) as Hrest.
    destruct (Split_comma rest) as [|piece pieces]; [done|].
    change (String.concat "," ("" :: piece :: pieces))
      with (String "," (String.concat "," (piece :: pieces))).
    by rewrite IH.
  - pose proof (Split_comma_nonempty rest) as Hrest.
    destruct (Split_comma rest) as [|piece pieces]; [done|].
    rewrite <- IH. by destruct pieces.
Qed.

Lemma Split_comma_no_comma s :
  Forall (λ piece, ","%char ∉ list_ascii_of_string piece) (Split_comma s).
Proof.
  induction s as [|c rest IH]; simpl.
  - constructor; [|constructor]. simpl. apply not_elem_of_nil.
  - destruct (Ascii.eqb_spec c ",") as [->|Hne].
    + constructor; [|done]. simpl. apply not_elem_of_nil.
    + destruct (Split_comma rest) as [|piece pieces].
      * constructor; [|constructor]. simpl. intros Hin.
        apply elem_of_cons in Hin as [Heq|Hin]; [done|by apply elem_of_nil in Hin].
      * apply Forall_cons in IH as [Hpiece Hpieces]. constructor; [|done].
        simpl. intros Hin. apply elem_of_cons in Hin as [Heq|Hin]; [done|].
        by apply Hpiece.
Qed.

Lemma main_Some getenv m :
  main getenv = Some m →
  getenv "NODE_ID" ≠ "" ∧ getenv "REPLICAS" ≠ "" ∧
  m = NewLWWMap (getenv "NODE_ID") (Split_comma (getenv "REPLICAS")).
Proof.
  unfold main.
  destruct (String.eqb_spec (getenv "NODE_ID") "") as [|Hid]; [discriminate|].
  destruct (String.eqb_spec (getenv "REPLICAS") "") as [|Hrep]; [discriminate|].
  simpl. by intros [= <-].
Qed.

(** X15: [main] goes on exactly when both [NODE_ID] and [REPLICAS] are set
    to non-empty strings, and then starts from an empty store at clock 0
    under that node id, with a non-empty replica list whose entries hold no
    comma and, joined by commas, give [REPLICAS] back. *)
Theorem main_configuration (getenv : string → string) :
  (is_Some (main getenv) ↔ getenv "NODE_ID" ≠ "" ∧ getenv "REPLICAS" ≠ "") ∧
  ∀ m, main getenv = Some m →
    store m = ∅ ∧ clock m = 0 ∧ nodeID m = getenv "NODE_ID" ∧
    replicas m ≠ [] ∧
    String.concat "," (replicas m) = getenv "REPLICAS" ∧
    Forall (λ replica, ","%char ∉ list_ascii_of_string replica) (replicas m).
Proof.
  split.
  - split.
    + intros [m Hm]. by destruct (main_Some getenv m Hm) as (? & ? & _).
    + intros [Hid Hrep]. unfold main.
      destruct (String.eqb_spec (getenv "NODE_ID") ""); [done|].
      destruct (String.eqb_spec (getenv "REPLICAS") ""); [done|].
      by eexists.
  - intros m Hm. destruct (main_Some getenv m Hm) as (_ & _ & ->). simpl.
    split; [done|]. split; [done|]. split; [done|].
    split; [apply Split_comma_nonempty|].
    split; [apply Split_comma_join|apply Split_comma_no_comma].
Qed.



(** * The HTTP handlers *)

Lemma LWWMap_Patch_OK decode m r m' :
  LWWMap_Patch decode m r = (m', WriteHeader StatusOK) →
  ∃ operations, decode (Body r) = inr operations ∧ m' = Apply m operations.
Proof.
  unfold LWWMap_Patch. destruct (negb (String.eqb (Method r) MethodPost));
    [discriminate|].
  destruct (decode (Body r)) as [err|operations]; [discriminate|].
  intros [= <-]. by exists operations.
Qed.

Lemma LWWMap_Patch_state decode m r :
  (LWWMap_Patch decode m r).1 = m ∨
  ∃ operations, (LWWMap_Patch decode m r).1 = Apply m operations.
Proof.
  unfold LWWMap_Patch. destruct (negb (String.eqb (Method r) MethodPost));
    [by left|].
  destruct (decode (Body r)) as [err|operations]; [by left|].
  right. by exists operations.
Qed.

Lemma LWWMap_Get_stored decode m r key data :
  Method r = MethodPost → decode (Body r) = Some key →
  store m !! key = Some data →
  LWWMap_Get decode m r = EncodeJSON data.
Proof.
  intros Hm Hd Hk. unfold LWWMap_Get, lookup_ok.
  by rewrite Hm, String.eqb_refl, Hd, Hk.
Qed.

(** X17: every key named in a batch that the Patch handler answered with
    200 is readable afterwards: a well-formed Get for it answers with the
    record now stored under it, never with 404, whether or not the patch
    for it was accepted. *)
Theorem patched_keys_are_readable
    (decode_ops : string → string + list Patch)
    (decode_key : string → option string)
    (m m' : LWWMap) (r rg : Request) (operations : list Patch) (key : string) :
  LWWMap_Patch decode_ops m r = (m', WriteHeader StatusOK) →
  decode_ops (Body r) = inr operations → key ∈ (Key <$> operations) →
  Method rg = MethodPost → decode_key (Body rg) = Some key →
  ∃ data, store m' !! key = Some data ∧
          LWWMap_Get decode_key m' rg = EncodeJSON data.
Proof.
  intros Hok Hops Hkey Hmeth Hdec.
  apply LWWMap_Patch_OK in Hok as (ops' & Hops' & ->).
  rewrite Hops in Hops'. injection Hops' as <-.
  assert (key ∈ dom (store (Apply m operations))) as Hin.
  { rewrite Apply_dom. by apply elem_of_union_r, elem_of_list_to_set. }
  apply elem_of_dom in Hin as [data Hdata]. exists data.
  split; [done|]. by apply (LWWMap_Get_stored _ _ _ key).
Qed.

(** X18: no request takes a key away: if a Get is answered with a record,
    then after any further request to the Patch handler, accepted or
    refused, the same Get is still answered with a record. *)
Theorem readable_keys_stay_readable
    (decode_ops : string → string + list Patch)
    (decode_key : string → option string)
    (m : LWWMap) (r rg : Request) (data : Data) :
  LWWMap_Get decode_key m rg = EncodeJSON data →
  ∃ data', LWWMap_Get decode_key (LWWMap_Patch decode_ops m r).1 rg =
           EncodeJSON data'.
Proof.
  intros Hget.
  destruct (LWWMap_Patch_state decode_ops m r) as [->|[operations ->]];
    [by exists data|].
  unfold LWWMap_Get in *.
  destruct (negb (String.eqb (Method rg) MethodPost)); [discriminate|].
  destruct (decode_key (Body rg)) as [key|]; [|discriminate].
  unfold lookup_ok in *.
  destruct (store m !! key) as [d|] eqn:Hk; [|discriminate].
  assert (key ∈ dom (store (Apply m operations))) as Hin.
  { rewrite Apply_dom. apply elem_of_union_l, elem_of_dom. by exists d. }
  apply elem_of_dom in Hin as [data' ->]. by exists data'.
Qed.

(** X19: write, then read: when the Patch handler accepts a batch of
    patches for pairwise different keys that the store did not hold, a
    well-formed Get for the key of any of them answers with the value that
    patch carried. *)
Theorem first_write_then_read
    (decode_ops : string → string + list Patch)
    (decode_key : string → option string)
    (m : LWWMap) (r rg : Request) (operations : list Patch) (op : Patch) :
  Method r = MethodPost → decode_ops (Body r) = inr operations →
  NoDup (Key <$> operations) →
  (∀ op', op' ∈ operations → store m !! Key op' = None) →
  op ∈ operations →
  Method rg = MethodPost → decode_key (Body rg) = Some (Key op) →
  (LWWMap_Patch decode_ops m r).2 = WriteHeader StatusOK ∧
  ∃ stamp, LWWMap_Get decode_key (LWWMap_Patch decode_ops m r).1 rg =
           EncodeJSON (mkData (Value op) stamp).
Proof.
  intros Hmeth Hops Hnd Hfresh Hin Hmeth' Hkey.
  unfold LWWMap_Patch. rewrite Hmeth, String.eqb_refl, Hops. simpl.
  split; [done|].
  destruct (Apply_fresh_keys operations m Hnd Hfresh op Hin) as [stamp Hst].
  exists stamp. by apply (LWWMap_Get_stored _ _ _ (Key op)).
Qed.

Lemma patched_keys_are_readable_witness :
  let operations := [mkPatch "a" "y" 3; mkPatch "b" "w" (-1)] in
  let decode_ops := λ _ : string, inr operations : string + list Patch in
  let decode_key := λ body : string, Some body in
  let r := mkRequest "POST" "[...]" in
  let rg := mkRequest "POST" "a" in
  LWWMap_Patch decode_ops node1_a_x_5 r =
    (Apply node1_a_x_5 operations, WriteHeader StatusOK) ∧
  decode_ops (Body r) = inr operations ∧ "a" ∈ (Key <$> operations) ∧
  Method rg = MethodPost ∧ decode_key (Body rg) = Some "a" ∧
  ∃ data, store (Apply node1_a_x_5 operations) !! "a" = Some data ∧
          LWWMap_Get decode_key (Apply node1_a_x_5 operations) rg =
          EncodeJSON data.
Proof.
  intros operations decode_ops decode_key r rg.
  assert (LWWMap_Patch decode_ops node1_a_x_5 r =
          (Apply node1_a_x_5 operations, WriteHeader StatusOK)) as Hok
    by reflexivity.
  assert ("a" ∈ (Key <$> operations)) as Hkey by (simpl; apply elem_of_cons; by left).
  split; [exact Hok|]. split; [reflexivity|]. split; [exact Hkey|].
  split; [reflexivity|]. split; [reflexivity|].
  exact (patched_keys_are_readable decode_ops decode_key node1_a_x_5
           (Apply node1_a_x_5 operations) r rg operations "a"
           Hok eq_refl Hkey eq_refl eq_refl).
Defined.

Lemma readable_keys_stay_readable_witness :
  let decode_ops :=
    λ _ : string, inr [mkPatch "a" "y" 9] : string + list Patch in
  let decode_key := λ body : string, Some body in
  let r := mkRequest "POST" "[...]" in
  let rg := mkRequest "POST" "a" in
  LWWMap_Get decode_key node1_a_x_5 rg = EncodeJSON (mkData "x" 5) ∧
  ∃ data', LWWMap_Get decode_key (LWWMap_Patch decode_ops node1_a_x_5 r).1 rg =
           EncodeJSON data'.
Proof.
  intros decode_ops decode_key r rg.
  assert (LWWMap_Get decode_key node1_a_x_5 rg = EncodeJSON (mkData "x" 5))
    as Hget by (vm_compute; reflexivity).
  split; [exact Hget|].
  exact (readable_keys_stay_readable decode_ops decode_key node1_a_x_5 r rg
           (mkData "x" 5) Hget).
Defined.

Lemma first_write_then_read_witness :
  let op := mkPatch "b" "w" (-1) in
  let operations := [op] in
  let decode_ops := λ _ : string, inr operations : string + list Patch in
  let decode_key := λ body : string, Some body in
  let r := mkRequest "POST" "[...]" in
  let rg := mkRequest "POST" "b" in
  Method r = MethodPost ∧ decode_ops (Body r) = inr operations ∧
  NoDup (Key <$> operations) ∧
  (∀ op', op' ∈ operations → store node1_a_x_5 !! Key op' = None) ∧
  op ∈ operations ∧
  Method rg = MethodPost ∧ decode_key (Body rg) = Some (Key op) ∧
  (LWWMap_Patch decode_ops node1_a_x_5 r).2 = WriteHeader StatusOK ∧
  ∃ stamp, LWWMap_Get decode_key (LWWMap_Patch decode_ops node1_a_x_5 r).1 rg =
           EncodeJSON (mkData (Value op) stamp).
Proof.
  intros op operations decode_ops decode_key r rg.
  assert (NoDup (Key <$> operations)) as Hnd.
  { simpl. apply NoDup_singleton. }
  assert (∀ op', op' ∈ operations → store node1_a_x_5 !! Key op' = None)
    as Hfresh.
  { intros op' Hin. unfold operations in Hin.
    apply list_elem_of_singleton in Hin as ->. vm_compute. reflexivity. }
  assert (op ∈ operations) as Hin by (apply elem_of_cons; by left).
  split; [reflexivity|]. split; [reflexivity|]. split; [exact Hnd|].
  split; [exact Hfresh|]. split; [exact Hin|].
  split; [reflexivity|]. split; [reflexivity|].
  exact (first_write_then_read decode_ops decode_key node1_a_x_5 r rg
           operations op eq_refl eq_refl Hnd Hfresh Hin eq_refl eq_refl).
Defined.

(** X20: the Patch handler changes the node only when it answers 200: a
    request with another method is answered 405 and an undecodable body 400
    with the decoder's message, both leaving store and clock as they were;
    and a decoded empty batch is answered 200 and changes nothing either. *)
Theorem Patch_refusals_change_nothing
    (decode_ops : string → string + list Patch) (m : LWWMap) (r : Request) :
  (Method r ≠ MethodPost →
   LWWMap_Patch decode_ops m r =
     (m, HttpError "Invalid method" StatusMethodNotAllowed)) ∧
  (∀ err, Method r = MethodPost → decode_ops (Body r) = inl err →
   LWWMap_Patch decode_ops m r = (m, HttpError err StatusBadRequest)) ∧
  (Method r = MethodPost → decode_ops (Body r) = inr [] →
   LWWMap_Patch decode_ops m r = (m, WriteHeader StatusOK)) ∧
  ((LWWMap_Patch decode_ops m r).2 ≠ WriteHeader StatusOK →
   (LWWMap_Patch decode_ops m r).1 = m).
Proof.
  unfold LWWMap_Patch. repeat split.
  - intros Hne. by destruct (String.eqb_spec (Method r) MethodPost).
  - intros err -> Herr. by rewrite String.eqb_refl, Herr.
  - intros -> Hnil. by rewrite String.eqb_refl, Hnil.
  - destruct (negb (String.eqb (Method r) MethodPost)); [done|].
    by destruct (decode_ops (Body r)).
Qed.

(** X21: the answers of the Get handler: the stored record exactly when the
    method is POST, the body decodes and the key is stored; "Key not found"
    with 404 exactly when the method is POST, the body decodes and the key
    is absent; so a GET request is refused even for a stored key. *)
Theorem Get_answers (decode_key : string → option string) (m : LWWMap)
    (r : Request) :
  (∀ data, LWWMap_Get decode_key m r = EncodeJSON data ↔
     Method r = MethodPost ∧
     ∃ key, decode_key (Body r) = Some key ∧ store m !! key = Some data) ∧
  (LWWMap_Get decode_key m r = HttpError "Key not found" StatusNotFound ↔
     Method r = MethodPost ∧
     ∃ key, decode_key (Body r) = Some key ∧ store m !! key = None) ∧
  (Method r ≠ MethodPost →
   LWWMap_Get decode_key m r =
     HttpError "Invalid method" StatusMethodNotAllowed).
Proof.
  unfold LWWMap_Get, lookup_ok.
  destruct (String.eqb_spec (Method r) MethodPost) as [Hm|Hm]; simpl.
  - destruct (decode_key (Body r)) as [key|].
    + destruct (store m !! key) as [d|] eqn:Hk.
      * split; [|split; [|done]].
        -- intros data. split.
           ++ intros [= <-]. split; [done|]. by exists key.
           ++ intros [_ (key' & [= <-] & Hk')]. congruence.
        -- split; [discriminate|]. intros [_ (key' & [= <-] & Hk')]. congruence.
      * split; [|split; [|done]].
        -- intros data. split; [discriminate|].
           intros [_ (key' & [= <-] & Hk')]. congruence.
        -- split; [|done]. intros _. split; [done|]. by exists key.
    + split; [|split; [|done]].
      * intros data. split; [discriminate|]. by intros [_ (key & ? & _)].
      * split; [discriminate|]. by intros [_ (key & ? & _)].
  - split; [|split; [|done]].
    + intros data. split; [discriminate|]. by intros [? _].
    + split; [discriminate|]. by intros [? _].
Qed.

(** * One round of gossip to a fresh peer *)

Section FreshPeer.

Variables range_order shuffle : list string → list string.
Variable intn : Z → Z.

Hypothesis range_order_perm : ∀ l, range_order l ≡ₚ l.

(** X22: a store of at most 5 keys replicates its values in one round: the
    batch of one iteration, delivered to a peer that starts empty, leaves
    the peer with exactly the sender's keys, each under the sender's
    value. *)
Theorem small_store_replicates_in_one_round (m : LWWMap) (url : string)
    (ops : list Patch) (node : string) (peers : list string) :
  (size (store m) ≤ 5)%nat →
  sync_iteration range_order shuffle intn m = Posted url ops →
  ∀ k, Data_Value <$> store (Apply (NewLWWMap node peers) ops) !! k =
       Data_Value <$> store m !! k.
Proof.
  intros Hsize Hpost k.
  pose proof Hpost as Hinv.
  apply sync_iteration_Posted_inv in Hinv as (Hops & _).
  assert (Key <$> ops ≡ₚ store_keys m) as Hkeys.
  { rewrite Hops, snapshot_keys.
    apply (selectRandomKeys_all range_order shuffle range_order_perm). lia. }
  assert (NoDup (Key <$> ops)) as Hnd
    by (rewrite Hkeys; apply store_keys_NoDup).
  destruct (store m !! k) as [d|] eqn:Hk.
  - assert (k ∈ (Key <$> ops)) as Hin
      by (rewrite Hkeys; apply elem_of_store_keys; by eexists).
    apply list_elem_of_fmap in Hin as (op & -> & Hin).
    destruct (Apply_fresh_keys ops (NewLWWMap node peers) Hnd) with (op := op)
      as [stamp ->]; [intros; simpl; apply lookup_empty|done|].
    assert (store m !! Key op = Some (mkData (Value op) (Timestamp op))) as Hrec.
    { rewrite Hops in Hin. apply (snapshot_records m _ op) in Hin; [done|].
      intros key Hkey. apply elem_of_store_keys. rewrite <- Hkeys.
      by rewrite Hops, snapshot_keys. }
    rewrite Hrec in Hk. by injection Hk as <-.
  - rewrite Apply_other_keys; [simpl; by rewrite lookup_empty|].
    rewrite Hkeys, elem_of_store_keys, Hk. by intros [? ?].
Qed.

End FreshPeer.

Lemma small_store_replicates_in_one_round_witness :
  let m := node1_a_x_5 in
  let url := "http://replica3:8080/patch" in
  let ops := [mkPatch "k" "v" 0; mkPatch "a" "x" 5] in
  (∀ l : list string, id l ≡ₚ l) ∧
  (size (store m) ≤ 5)%nat ∧
  sync_iteration id reverse (λ n, n - 1) m = Posted url ops ∧
  ∀ k, Data_Value <$>
         store (Apply (NewLWWMap "3" ["replica1:8080"; "replica2:8080"]) ops) !! k =
       Data_Value <$> store m !! k.
Proof.
  intros m url ops.
  assert (size (store m) ≤ 5)%nat as Hsize by (vm_compute; lia).
  assert (sync_iteration id reverse (λ n, n - 1) m = Posted url ops) as Hpost
    by (vm_compute; reflexivity).
  split; [exact id_is_permutation|]. split; [exact Hsize|]. split; [exact Hpost|].
  exact (small_store_replicates_in_one_round id reverse (λ n, n - 1)
           id_is_permutation m url ops "3" ["replica1:8080"; "replica2:8080"]
           Hsize Hpost).
Defined.
